(** * Generation orchestration of the AI editor

    A shallow embedding of the editor's state machine
    (machines/editorMachine.ts), the continuation service adapter
    (services/geminiService.ts), the document surface
    (components/ProseMirrorEditor.tsx) and the two pieces of App.tsx that
    drive them: the edge-detecting effect and the click handler. *)

From Stdlib Require Import List Bool Arith NArith String Ascii Lia.
Import ListNotations.

(** ** JavaScript values used by the program *)

Module Js.

(** A JavaScript string is a sequence of UTF-16 code units. *)
Definition str := list N.

(** An ASCII literal of the source, as code units. *)
Definition lit (s : string) : str :=
  List.map N_of_ascii (list_ascii_of_string s).

(** [!s] is false exactly for a non-empty string; [null] and [undefined]
    are falsy as well. *)
Definition truthy (v : option str) : bool :=
  match v with
  | Some (_ :: _) => true
  | _ => false
  end.

(** [v || ''] on a value that is a string, [null] or [undefined]. *)
Definition or_empty (v : option str) : str :=
  match v with
  | Some s => s
  | None => []
  end.

(** The code units that [String.prototype.trim] strips: WhiteSpace and
    LineTerminator of ECMAScript. *)
Definition isWhiteSpace (c : N) : bool :=
  (  (c =? 9) || (c =? 10) || (c =? 11) || (c =? 12) || (c =? 13)
  || (c =? 32) || (c =? 160) || (c =? 5760)
  || ((8192 <=? c) && (c <=? 8202))
  || (c =? 8232) || (c =? 8233) || (c =? 8239) || (c =? 8287)
  || (c =? 12288) || (c =? 65279))%N.

Fixpoint trimStart (s : str) : str :=
  match s with
  | c :: r => if isWhiteSpace c then trimStart r else s
  | [] => []
  end.

Fixpoint trimEnd (s : str) : str :=
  match s with
  | [] => []
  | c :: r =>
      match trimEnd r with
      | [] => if isWhiteSpace c then [] else [c]
      | r' => c :: r'
      end
  end.

Definition trim (s : str) : str := trimEnd (trimStart s).

(** What a rejected promise carries: any value can be thrown.  The program
    only asks whether it is an instance of [Error] and, if so, reads its
    [message]. *)
Inductive value :=
| Undefined
| Null
| Str (s : str)
| Obj (props : list (string * str)).

Inductive thrown :=
| ErrorInstance (message : str)
| NotAnError (v : value).

End Js.

(** ** types.ts *)

Record EditorContext := {
  error : option Js.str;
  lastGeneratedText : option Js.str
}.

Inductive EditorEvent :=
| GENERATE (currentText : Js.str)
| RETRY
| RESET.

Record GenerateTextServiceInput := { currentText_of : Js.str }.

(** ** machines/editorMachine.ts *)

Inductive StateValue := idle | generating | failure.

Definition StateValue_eqb (a b : StateValue) : bool :=
  match a, b with
  | idle, idle | generating, generating | failure, failure => true
  | _, _ => false
  end.

(** Events the machine processes: the declared ones and the two that the
    invoked actor [generateTextService] raises when its promise settles
    ([xstate.done.actor.generateTextService] with [output],
    [xstate.error.actor.generateTextService] with [error]).  The actor runs
    only while the machine is in [generating], so these two arrive there. *)
Inductive MachineEvent :=
| Sent (e : EditorEvent)
| DoneActor (output : Js.str)
| ErrorActor (err : Js.thrown).

Inductive EventType := tGENERATE | tRETRY | tRESET | tDone | tError.

Definition event_type (ev : MachineEvent) : EventType :=
  match ev with
  | Sent (GENERATE _) => tGENERATE
  | Sent RETRY => tRETRY
  | Sent RESET => tRESET
  | DoneActor _ => tDone
  | ErrorActor _ => tError
  end.

(** [event.output], [event.error] and [event.currentText] are read through
    [any]; on an event without the property they are [undefined]. *)
Definition event_output (ev : MachineEvent) : option Js.str :=
  match ev with DoneActor o => Some o | _ => None end.

Definition event_error (ev : MachineEvent) : option Js.thrown :=
  match ev with ErrorActor e => Some e | _ => None end.

Definition event_currentText (ev : MachineEvent) : option Js.str :=
  match ev with Sent (GENERATE t) => Some t | _ => None end.

Definition unknown_error : Js.str := Js.lit "An unknown error occurred".

(** *** actions *)

Definition setError (ctx : EditorContext) (ev : MachineEvent) : EditorContext :=
  {| error :=
       Some match event_error ev with
            | Some (Js.ErrorInstance message) => message
            | _ => unknown_error
            end;
     lastGeneratedText := lastGeneratedText ctx |}.

Definition clearError (ctx : EditorContext) (ev : MachineEvent) : EditorContext :=
  {| error := None;
     lastGeneratedText := lastGeneratedText ctx |}.

Definition setLastGenerated (ctx : EditorContext) (ev : MachineEvent) : EditorContext :=
  {| error := None;
     lastGeneratedText := event_output ev |}.

Inductive ActionName := SetError | ClearError | SetLastGenerated.

Definition action (a : ActionName) : EditorContext -> MachineEvent -> EditorContext :=
  match a with
  | SetError => setError
  | ClearError => clearError
  | SetLastGenerated => setLastGenerated
  end.

(** *** the machine configuration *)

Record TransitionConfig := {
  target : StateValue;
  actions : list ActionName
}.

Definition initial : StateValue := idle.

Definition initial_context : EditorContext :=
  {| error := None; lastGeneratedText := None |}.

(** The [on] table of each state, with [invoke.onDone] and [invoke.onError]
    of [generating] as the handlers of the actor's two events. *)
Definition on (s : StateValue) (t : EventType) : option TransitionConfig :=
  match s, t with
  | idle, tGENERATE => Some {| target := generating; actions := [ClearError] |}
  | generating, tDone => Some {| target := idle; actions := [SetLastGenerated] |}
  | generating, tError => Some {| target := failure; actions := [SetError] |}
  | failure, tRETRY => Some {| target := idle; actions := [ClearError] |}
  | failure, tGENERATE => Some {| target := generating; actions := [ClearError] |}
  | _, _ => None
  end.

(** [invoke] of a state: the input handed to the actor [generateText]. *)
Definition invoke (s : StateValue) : option (MachineEvent -> GenerateTextServiceInput) :=
  match s with
  | generating =>
      Some (fun ev => {| currentText_of := Js.or_empty (event_currentText ev) |})
  | _ => None
  end.

(** A snapshot: the state value, the context and the running invoked actors,
    each with the input it was started with. *)
Record Snapshot := {
  value : StateValue;
  context : EditorContext;
  children : list GenerateTextServiceInput
}.

Definition editorMachine : Snapshot :=
  {| value := initial; context := initial_context; children := [] |}.

Definition matches (s : Snapshot) (v : StateValue) : bool :=
  StateValue_eqb (value s) v.

(** Leaving a state stops the actors it invoked; entering one starts its
    [invoke]. *)
Definition exit_state (s : StateValue) (cs : list GenerateTextServiceInput)
  : list GenerateTextServiceInput :=
  match invoke s with
  | Some _ => []
  | None => cs
  end.

Definition enter_state (s : StateValue) (ev : MachineEvent)
  (cs : list GenerateTextServiceInput) : list GenerateTextServiceInput :=
  match invoke s with
  | Some input => cs ++ [input ev]
  | None => cs
  end.

(** One event: an event without a handler in the current state leaves the
    snapshot as it is; otherwise the source state is left, the actions run in
    order on the context, and the target is entered.  One case is outside
    the model: an actor's error event arriving where it has no handler
    ([idle], [failure]) stops the real machine with status [error].  Only a
    running actor raises that event, and one runs only in [generating], where
    the event has a handler; nothing below is stated of that case. *)
Definition transition (s : Snapshot) (ev : MachineEvent) : Snapshot :=
  match on (value s) (event_type ev) with
  | None => s
  | Some t =>
      {| value := target t;
         context := fold_left (fun ctx a => action a ctx ev) (actions t) (context s);
         children := enter_state (target t) ev (exit_state (value s) (children s)) |}
  end.

Definition run_machine (evs : list MachineEvent) : Snapshot :=
  fold_left transition evs editorMachine.

(** ** services/geminiService.ts *)

Record GenerateContentParameters := {
  model : string;
  contents : Js.str
}.

(** What [ai.models.generateContent] does with a request: it resolves to a
    response whose [text] may be [undefined], or it rejects. *)
Inductive GenerateContentResult :=
| Response (text : option Js.str)
| Throws (e : Js.thrown).

Inductive Promise :=
| Fulfilled (text : Js.str)
| Rejected (e : Js.thrown).

Definition prompt (currentText : Js.str) : Js.str :=
  Js.lit "You are a helpful writing assistant. Continue the following text naturally. Maintain the tone and style of the existing text. Do not repeat the last sentence provided. Just provide the continuation text immediately without any conversational filler."
  ++ [10; 10]%N ++ Js.lit "---" ++ [10]%N ++ currentText ++ [10]%N ++ Js.lit "---".

Definition no_text_generated : Js.str := Js.lit "No text generated from Gemini.".

(** The lines written with [console.error], and the promise returned.  Both
    the provider's rejection and the error thrown for a missing text reach
    the [catch], which logs and rethrows. *)
Definition generateContinuation
  (generateContent : GenerateContentParameters -> GenerateContentResult)
  (currentText : Js.str) : list (Js.str * Js.thrown) * Promise :=
  let tried :=
    match generateContent {| model := "gemini-2.5-flash"; contents := prompt currentText |} with
    | Response text =>
        if negb (Js.truthy text)
        then Rejected (Js.ErrorInstance no_text_generated)
        else Fulfilled (Js.or_empty text)
    | Throws e => Rejected e
    end in
  match tried with
  | Fulfilled text => ([], Fulfilled text)
  | Rejected e => ([(Js.lit "Gemini API Error:", e)], Rejected e)
  end.

(** The event the actor [generateText] raises when its promise settles. *)
Definition actor_event (p : Promise) : MachineEvent :=
  match p with
  | Fulfilled text => DoneActor text
  | Rejected e => ErrorActor e
  end.

(** The machine together with the adapter: an event is sent, or the running
    actor's call to the provider settles. *)
Inductive Input :=
| Send (e : EditorEvent)
| Settle (generateContent : GenerateContentParameters -> GenerateContentResult).

Definition system_step (s : Snapshot) (i : Input) : Snapshot :=
  match i with
  | Send e => transition s (Sent e)
  | Settle generateContent =>
      match children s with
      | [] => s
      | a :: _ =>
          transition s
            (actor_event (snd (generateContinuation generateContent (currentText_of a))))
      end
  end.

Definition run (inputs : list Input) : Snapshot :=
  fold_left system_step inputs editorMachine.

(** ** components/ProseMirrorEditor.tsx *)

(** A ProseMirror node: a text node, or a node of a named type with its
    content. *)
#[warnings="-register-all"] Inductive Node :=
| TextNode (text : Js.str)
| ElemNode (name : string) (content : list Node).

(** The callback of [getContent] run by [doc.descendants]: every node below
    the root, parents before children, in document order. *)
Fixpoint visit (n : Node) : Js.str :=
  match n with
  | TextNode text => text
  | ElemNode name content =>
      (if String.eqb name "paragraph" then [10%N] else [])
      ++ (fix visit_all (ns : list Node) : Js.str :=
            match ns with
            | [] => []
            | c :: r => visit c ++ visit_all r
            end) content
  end.

Definition descendants_text (doc : Node) : Js.str :=
  match doc with
  | TextNode _ => []
  | ElemNode _ content => List.concat (List.map visit content)
  end.

(** The editor view: its document, the texts of the insertions dispatched to
    it, and whether it was given the focus. *)
Record EditorView := {
  doc : Node;
  inserted : list Js.str;
  focused : bool
}.

(** The handle a mounted editor exposes; [viewRef] is its [viewRef.current]. *)
Record EditorHandle := { viewRef : option EditorView }.

Definition getContent (h : EditorHandle) : Js.str :=
  match viewRef h with
  | None => []
  | Some view => Js.trim (descendants_text (doc view))
  end.

Section ProseMirror.

(** The document ProseMirror builds when the transaction
    [state.tr.insertText(text, state.doc.content.size)] is applied. *)
Variable insertTextAtEnd : Js.str -> Node -> Node.

Definition insertContent (text : Js.str) (h : EditorHandle) : EditorHandle :=
  match viewRef h with
  | None => h
  | Some view =>
      {| viewRef := Some {| doc := insertTextAtEnd text (doc view);
                            inserted := inserted view ++ [text];
                            focused := true |} |}
  end.

Definition focus (h : EditorHandle) : EditorHandle :=
  match viewRef h with
  | None => h
  | Some view =>
      {| viewRef := Some {| doc := doc view;
                            inserted := inserted view;
                            focused := true |} |}
  end.

(** ** App.tsx *)

(** What the component holds: the machine's current snapshot, the two refs,
    and the alerts shown and events sent so far. *)
Record App := {
  state : Snapshot;
  previousStateValue : StateValue;
  editorRef : option EditorHandle;
  alerts : list Js.str;
  sent : list EditorEvent
}.

Definition send (e : EditorEvent) (app : App) : App :=
  {| state := transition (state app) (Sent e);
     previousStateValue := previousStateValue app;
     editorRef := editorRef app;
     alerts := alerts app;
     sent := sent app ++ [e] |}.

Definition alert (msg : Js.str) (app : App) : App :=
  {| state := state app;
     previousStateValue := previousStateValue app;
     editorRef := editorRef app;
     alerts := alerts app ++ [msg];
     sent := sent app |}.

(** The effect that watches the state value. *)
Definition syncEffect (app : App) : App :=
  let wasGenerating := StateValue_eqb (previousStateValue app) generating in
  let isIdle := matches (state app) idle in
  let lastGenerated := lastGeneratedText (context (state app)) in
  {| state := state app;
     previousStateValue := value (state app);
     editorRef :=
       if wasGenerating && isIdle && Js.truthy lastGenerated
       then match editorRef app with
            | Some h => Some (insertContent (Js.or_empty lastGenerated) h)
            | None => None
            end
       else editorRef app;
     alerts := alerts app;
     sent := sent app |}.

Definition please_type : Js.str :=
  Js.lit "Please type something first so the AI has context!".

Definition handleContinueWriting (app : App) : App :=
  match editorRef app with
  | None => app
  | Some h =>
      let currentText := getContent h in
      if negb (Js.truthy (Some (Js.trim currentText)))
      then alert please_type app
      else send (GENERATE currentText) app
  end.

(** The machine publishes a snapshot; the component renders with it and the
    effect runs. *)
Definition observe (app : App) (s : Snapshot) : App :=
  syncEffect {| state := s;
                previousStateValue := previousStateValue app;
                editorRef := editorRef app;
                alerts := alerts app;
                sent := sent app |}.

Definition observe_all (app : App) (snapshots : list Snapshot) : App :=
  fold_left observe snapshots app.

(** The texts inserted into the document so far. *)
Definition insertions (app : App) : list Js.str :=
  match editorRef app with
  | Some {| viewRef := Some view |} => inserted view
  | _ => []
  end.

(** The [generating -> idle] edges in a sequence of observed snapshots,
    seen from a previously observed state value. *)
Fixpoint edges (prev : StateValue) (snapshots : list Snapshot) : nat :=
  match snapshots with
  | [] => 0
  | s :: r =>
      (if StateValue_eqb prev generating && matches s idle then 1 else 0)
      + edges (value s) r
  end.

End ProseMirror.

(** The editor as it is once mounted: [EditorState.create] with the schema
    alone gives a document holding one empty paragraph. *)
Definition empty_doc : Node := ElemNode "doc" [ElemNode "paragraph" []].

Definition mounted (d : Node) : EditorHandle :=
  {| viewRef := Some {| doc := d; inserted := []; focused := true |} |}.

(** The component at its first render: [useMachine] gives the initial
    snapshot and [useRef(state.value)] remembers its value. *)
Definition first_render (h : option EditorHandle) : App :=
  {| state := editorMachine;
     previousStateValue := value editorMachine;
     editorRef := h;
     alerts := [];
     sent := [] |}.

(** ** Provenance of the context fields

    A ghost record carried next to the machine: how many generation attempts
    were started, and which attempt wrote the current [error] and the
    current [lastGeneratedText].  It reads the machine's configuration and
    never feeds back into it. *)
Record Provenance := {
  attempts : nat;
  errorFrom : option nat;
  textFrom : option nat
}.

Definition ghost_action (a : ActionName) (p : Provenance) : Provenance :=
  match a with
  | SetError =>
      {| attempts := attempts p; errorFrom := Some (attempts p); textFrom := textFrom p |}
  | ClearError =>
      {| attempts := attempts p; errorFrom := None; textFrom := textFrom p |}
  | SetLastGenerated =>
      {| attempts := attempts p; errorFrom := None; textFrom := Some (attempts p) |}
  end.

Definition ghost_enter (s : StateValue) (p : Provenance) : Provenance :=
  match invoke s with
  | Some _ =>
      {| attempts := S (attempts p); errorFrom := errorFrom p; textFrom := textFrom p |}
  | None => p
  end.

Definition ghost_transition (sp : Snapshot * Provenance) (ev : MachineEvent)
  : Snapshot * Provenance :=
  let (s, p) := sp in
  (transition s ev,
   match on (value s) (event_type ev) with
   | None => p
   | Some t => ghost_enter (target t) (fold_left (fun q a => ghost_action a q) (actions t) p)
   end).

Definition ghost_run (evs : list MachineEvent) : Snapshot * Provenance :=
  fold_left ghost_transition evs
    (editorMachine, {| attempts := 0; errorFrom := None; textFrom := None |}).

(** ** Invariants and examples *)

(** What holds of every snapshot the machine produces: an actor runs exactly
    in [generating], and [error] is set exactly in [failure]. *)
Definition well_formed (s : Snapshot) : Prop :=
  match value s with
  | idle => children s = [] /\ error (context s) = None
  | generating => (exists a, children s = [a]) /\ error (context s) = None
  | failure => children s = [] /\ error (context s) <> None
  end.

(** With the adapter in the loop, [lastGeneratedText] is [null] or a
    non-empty string. *)
Definition text_not_empty (s : Snapshot) : Prop :=
  lastGeneratedText (context s) <> Some [].

(** The condition under which the effect calls [insertContent]. *)
Definition fires (prev : StateValue) (s : Snapshot) : bool :=
  StateValue_eqb prev generating && matches s idle
  && Js.truthy (lastGeneratedText (context s)).

Definition provenance_ok (sp : Snapshot * Provenance) : Prop :=
  let (s, p) := sp in
  (errorFrom p = None <-> error (context s) = None) /\
  (textFrom p = None <-> lastGeneratedText (context s) = None) /\
  match value s with
  | idle =>
      errorFrom p = None /\ forall n, textFrom p = Some n -> n <= attempts p
  | generating =>
      errorFrom p = None /\ forall n, textFrom p = Some n -> n < attempts p
  | failure =>
      errorFrom p = Some (attempts p) /\ forall n, textFrom p = Some n -> n < attempts p
  end.

(** Concrete snapshots used to exercise the statements below. *)
Definition sky_was : Js.str := Js.lit "The sky was".
Definition turning_orange : Js.str := Js.lit " turning orange.".
Definition rate_limited : Js.str := Js.lit "rate limited".

Definition while_generating : Snapshot :=
  transition editorMachine (Sent (GENERATE sky_was)).

Definition after_failure : Snapshot :=
  transition while_generating (ErrorActor (Js.ErrorInstance rate_limited)).

Definition sky_doc : Node :=
  ElemNode "doc" [ElemNode "paragraph" [TextNode sky_was]; ElemNode "paragraph" []].

(** A stand-in for ProseMirror's insertion, to run the bridge on examples:
    the text goes into a new last paragraph. *)
Definition append_paragraph (text : Js.str) (d : Node) : Node :=
  match d with
  | ElemNode name content => ElemNode name (content ++ [ElemNode "paragraph" [TextNode text]])
  | TextNode _ => d
  end.

Definition scenario_A : list Input :=
  [Send (GENERATE sky_was); Settle (fun _ => Response (Some turning_orange))].

Definition app_while_generating : App :=
  observe append_paragraph (first_render (Some (mounted sky_doc)))
    (run [Send (GENERATE sky_was)]).

(** ** The failure's message, in the spec's words

    The spec derives [error] "from the failure's message, or a fixed
    fallback string if the failure carries no message".  Read on the thrown
    value alone, a failure carries a message when it has a [message]
    property that is not empty, whether or not it is an [Error]. *)
Fixpoint property (name : string) (props : list (string * Js.str)) : option Js.str :=
  match props with
  | [] => None
  | (key, v) :: rest => if String.eqb key name then Some v else property name rest
  end.

Definition carried_message (e : Js.thrown) : option Js.str :=
  match e with
  | Js.ErrorInstance [] => None
  | Js.ErrorInstance message => Some message
  | Js.NotAnError (Js.Obj props) =>
      match property "message" props with
      | Some (c :: r) => Some (c :: r)
      | _ => None
      end
  | Js.NotAnError _ => None
  end.

(** The [error] the spec's words ask for after a failure. *)
Definition spec_error (e : Js.thrown) : Js.str :=
  match carried_message e with
  | Some message => message
  | None => unknown_error
  end.

(** A thrown object that is not an [Error] and has a [message]. *)
Definition plain_object_with_message : Js.thrown :=
  Js.NotAnError (Js.Obj [("message"%string, Js.lit "rate limited")]).

(** ** The traversal of [getContent], node by node *)

(** A node followed by everything below it, each node before its content,
    in document order. *)
Fixpoint subtree (n : Node) : list Node :=
  n :: match n with
       | TextNode _ => []
       | ElemNode _ content =>
           (fix subtrees (ns : list Node) : list Node :=
              match ns with
              | [] => []
              | c :: r => subtree c ++ subtrees r
              end) content
       end.

(** The nodes [doc.descendants] hands to its callback; the callback never
    returns [false], so no subtree is skipped. *)
Definition descendants (d : Node) : list Node :=
  match d with
  | TextNode _ => []
  | ElemNode _ content => List.concat (List.map subtree content)
  end.

(** What the callback of [getContent] appends to [text] for one node. *)
Definition appended (n : Node) : Js.str :=
  match n with
  | TextNode text => text
  | ElemNode name _ => if String.eqb name "paragraph" then [10%N] else []
  end.

(** Whether a string holds blank code units only. *)
Definition blank (s : Js.str) : bool := forallb Js.isWhiteSpace s.

(** Whether no text node of the document holds anything but blank code
    units. *)
Definition no_visible_text (d : Node) : bool :=
  forallb (fun n => match n with
                    | TextNode text => blank text
                    | ElemNode _ _ => true
                    end) (descendants d).

(** A document of three paragraphs holding spaces and a tab. *)
Definition blank_doc : Node :=
  ElemNode "doc" [ElemNode "paragraph" [TextNode [32; 32]%N];
                  ElemNode "paragraph" [];
                  ElemNode "paragraph" [TextNode [9]%N]].

(** ** The component in use *)

(** What the component renders from the machine's snapshot: the error
    banner's text when the banner is there, and the button and the footer. *)
Record View := {
  banner : option Js.str;
  buttonDisabled : bool;
  buttonLabel : Js.str;
  footer : Js.str
}.

Definition something_went_wrong : Js.str := Js.lit "Something went wrong.".

Definition render (app : App) : View :=
  let isGenerating := matches (state app) generating in
  let isError := matches (state app) failure in
  {| banner :=
       if isError
       then Some (if Js.truthy (error (context (state app)))
                  then Js.or_empty (error (context (state app)))
                  else something_went_wrong)
       else None;
     buttonDisabled := isGenerating;
     buttonLabel := if isGenerating then Js.lit "AI is writing..."
                    else Js.lit "Continue Writing";
     footer := if isGenerating then Js.lit "Thinking..." else Js.lit "Ready" |}.

(** [dispatchTransaction]: the view's state becomes what applying the
    transaction gives; a transaction is taken as what it does to the
    document. *)
Definition dispatchTransaction (tr : Node -> Node) (view : EditorView) : EditorView :=
  {| doc := tr (doc view); inserted := inserted view; focused := focused view |}.

(** What can happen to the mounted component: a click on the button (which
    does nothing while it is disabled), a click on [Dismiss] (which is there
    only with the banner), an edit by the user, and the running actor's call
    to the provider settling. *)
Inductive Action :=
| ClickContinue
| ClickDismiss
| Edit (tr : Node -> Node)
| Settles (generateContent : GenerateContentParameters -> GenerateContentResult).

Definition act (a : Action) (app : App) : App :=
  match a with
  | ClickContinue =>
      if buttonDisabled (render app) then app else handleContinueWriting app
  | ClickDismiss =>
      match banner (render app) with
      | Some _ => send RETRY app
      | None => app
      end
  | Edit tr =>
      {| state := state app;
         previousStateValue := previousStateValue app;
         editorRef :=
           option_map
             (fun h => {| viewRef := option_map (dispatchTransaction tr) (viewRef h) |})
             (editorRef app);
         alerts := alerts app;
         sent := sent app |}
  | Settles generateContent =>
      {| state := system_step (state app) (Settle generateContent);
         previousStateValue := previousStateValue app;
         editorRef := editorRef app;
         alerts := alerts app;
         sent := sent app |}
  end.

(** The texts the effect inserts over a sequence of observed snapshots. *)
Fixpoint edge_texts (prev : StateValue) (snapshots : list Snapshot) : list Js.str :=
  match snapshots with
  | [] => []
  | s :: r =>
      (if fires prev s then [Js.or_empty (lastGeneratedText (context s))] else [])
      ++ edge_texts (value s) r
  end.

(** The text a step hands to the document: the adapter's result when the
    step is the settling of a running attempt and the adapter fulfils. *)
Definition delivered (s : Snapshot) (a : Action) : list Js.str :=
  match a with
  | Settles generateContent =>
      match children s with
      | [] => []
      | running :: _ =>
          match snd (generateContinuation generateContent (currentText_of running)) with
          | Fulfilled text => [text]
          | Rejected _ => []
          end
      end
  | _ => []
  end.

Section Component.

Variable insertTextAtEnd : Js.str -> Node -> Node.

(** After every action the component renders and its effect runs. *)
Definition app_step (app : App) (a : Action) : App :=
  syncEffect insertTextAtEnd (act a app).

Definition app_run (h : option EditorHandle) (actions : list Action) : App :=
  fold_left app_step actions (syncEffect insertTextAtEnd (first_render h)).

End Component.

(** What holds of the component between two actions: the effect has run
    on the current snapshot, the snapshot is one the machine produces with
    the adapter, and the editor is mounted. *)
Definition at_rest (app : App) : Prop :=
  previousStateValue app = value (state app)
  /\ well_formed (state app)
  /\ text_not_empty (state app)
  /\ exists view, editorRef app = Some {| viewRef := Some view |}.

(** * Properties *)

(** ** Trimming *)

Lemma trimStart_head c r s : Js.trimStart s = c :: r -> Js.isWhiteSpace c = false.
Proof.
  induction s as [|d s IH]; cbn [Js.trimStart]; [discriminate|].
  destruct (Js.isWhiteSpace d) eqn:E; [exact IH|].
  intros H; injection H as -> _; exact E.
Qed.

Lemma trimStart_fixed c r : Js.isWhiteSpace c = false -> Js.trimStart (c :: r) = c :: r.
Proof. intros E; cbn [Js.trimStart]; now rewrite E. Qed.

Lemma trimEnd_cons c r : Js.isWhiteSpace c = false -> Js.trimEnd (c :: r) = c :: Js.trimEnd r.
Proof. intros E; cbn [Js.trimEnd]; destruct (Js.trimEnd r); now rewrite ?E. Qed.

Lemma trimEnd_step c r :
  Js.trimEnd (c :: r) =
  match Js.trimEnd r with
  | [] => if Js.isWhiteSpace c then [] else [c]
  | d :: t => c :: d :: t
  end.
Proof. reflexivity. Qed.

Lemma trimEnd_idem s : Js.trimEnd (Js.trimEnd s) = Js.trimEnd s.
Proof.
  induction s as [|c s IH]; [reflexivity|].
  rewrite (trimEnd_step c s). destruct (Js.trimEnd s) as [|d t] eqn:E.
  - destruct (Js.isWhiteSpace c) eqn:W; [reflexivity|].
    rewrite trimEnd_step; cbn [Js.trimEnd]; now rewrite W.
  - rewrite trimEnd_step, IH. reflexivity.
Qed.

Lemma trim_idem s : Js.trim (Js.trim s) = Js.trim s.
Proof.
  unfold Js.trim. destruct (Js.trimStart s) as [|c r] eqn:E; [reflexivity|].
  pose proof (trimStart_head _ _ s E) as W.
  rewrite (trimEnd_cons c r W), (trimStart_fixed c _ W), (trimEnd_cons c _ W).
  now rewrite trimEnd_idem.
Qed.

(** ** The machine *)

Lemma fold_left_invariant {A B} (P : A -> Prop) (f : A -> B -> A) (l : list B) :
  (forall a b, P a -> P (f a b)) -> forall a, P a -> P (fold_left f l a).
Proof.
  intros step; induction l as [|b l IH]; intros a Ha; [exact Ha|].
  cbn [fold_left]; apply IH, step, Ha.
Qed.

Lemma fold_left_snoc {A B} (f : A -> B -> A) (l : list B) (b : B) (a : A) :
  fold_left f (l ++ [b]) a = f (fold_left f l a) b.
Proof. now rewrite fold_left_app. Qed.

Lemma transition_well_formed s ev : well_formed s -> well_formed (transition s ev).
Proof.
  destruct s as [v ctx cs]; unfold well_formed, transition; cbn.
  destruct v, ev as [[t| |]|o|e]; cbn; intros [Hc He];
    try (split; [assumption|assumption]);
    subst; repeat split; eauto; try discriminate;
    eexists; reflexivity.
Qed.

Lemma system_step_cases s i :
  system_step s i = s \/ exists ev, system_step s i = transition s ev.
Proof.
  destruct i as [e|g]; cbn; [right; eauto|].
  destruct (children s); [left; reflexivity|right; eauto].
Qed.

Lemma system_step_well_formed s i : well_formed s -> well_formed (system_step s i).
Proof.
  intros H; destruct (system_step_cases s i) as [->|[ev ->]];
    [exact H|now apply transition_well_formed].
Qed.

Lemma editorMachine_well_formed : well_formed editorMachine.
Proof. now split. Qed.

Lemma run_machine_well_formed evs : well_formed (run_machine evs).
Proof.
  unfold run_machine; apply (fold_left_invariant well_formed);
    [intros; now apply transition_well_formed|exact editorMachine_well_formed].
Qed.

Lemma run_well_formed inputs : well_formed (run inputs).
Proof.
  unfold run; apply (fold_left_invariant well_formed);
    [intros; now apply system_step_well_formed|exact editorMachine_well_formed].
Qed.

(** The adapter never fulfils with the empty string. *)
Lemma generateContinuation_fulfilled g currentText text :
  snd (generateContinuation g currentText) = Fulfilled text -> text <> [].
Proof.
  unfold generateContinuation.
  destruct (g _) as [[[|c r]|]|e]; cbn; intros H; try discriminate.
  injection H as <-; discriminate.
Qed.

Lemma system_step_text_not_empty s i :
  text_not_empty s -> text_not_empty (system_step s i).
Proof.
  unfold text_not_empty; destruct s as [v ctx cs], i as [e|g]; cbn.
  - destruct v, e; cbn; auto.
  - destruct cs as [|a cs]; [auto|].
    destruct (snd (generateContinuation g (currentText_of a))) as [t|e] eqn:E;
      destruct v; cbn; auto.
    intros _ H; injection H as ->.
    now apply generateContinuation_fulfilled in E.
Qed.

Lemma run_text_not_empty inputs : text_not_empty (run inputs).
Proof.
  unfold run; apply (fold_left_invariant text_not_empty);
    [intros; now apply system_step_text_not_empty|discriminate].
Qed.

(** A run with the adapter is a run of the machine on the events the adapter
    raised. *)
Lemma run_is_machine_run inputs : exists evs, run inputs = run_machine evs.
Proof.
  induction inputs as [|i inputs [evs IH]] using rev_ind; [now exists []|].
  unfold run in *; rewrite fold_left_snoc, IH.
  destruct (system_step_cases (run_machine evs) i) as [->|[ev ->]].
  - now exists evs.
  - exists (evs ++ [ev]). unfold run_machine; now rewrite fold_left_snoc.
Qed.

Lemma truthy_not_null (v : option Js.str) :
  v <> Some [] -> (Js.truthy v = true <-> v <> None).
Proof.
  destruct v as [[|c r]|]; cbn; intros H; split; intros K;
    try congruence; try discriminate; now elim H.
Qed.

Lemma settle_in_generating inputs g :
  value (run inputs) = generating ->
  exists a, children (run inputs) = [a] /\
    system_step (run inputs) (Settle g) =
    transition (run inputs)
      (actor_event (snd (generateContinuation g (currentText_of a)))).
Proof.
  intros Hv. pose proof (run_well_formed inputs) as W.
  unfold well_formed in W; rewrite Hv in W; destruct W as [[a Ha] _].
  exists a; split; [exact Ha|]. cbn; now rewrite Ha.
Qed.

(** C2. A provider success with text [t] takes the machine from
    [generating] to [idle] with [error = null] and [lastGeneratedText = t]:
    for the done event of the invoked actor on any snapshot in [generating],
    and for the adapter settling on a provider response with text [t] in any
    run of the machine. *)
Theorem success_gives_idle_with_text :
  (forall s t, value s = generating ->
     let s' := transition s (DoneActor t) in
     value s' = idle /\ error (context s') = None /\
     lastGeneratedText (context s') = Some t)
  /\
  (forall inputs g t,
     value (run inputs) = generating -> t <> [] ->
     (forall request, g request = Response (Some t)) ->
     let s' := system_step (run inputs) (Settle g) in
     value s' = idle /\ error (context s') = None /\
     lastGeneratedText (context s') = Some t).
Proof.
  assert (M : forall s t, value s = generating ->
     let s' := transition s (DoneActor t) in
     value s' = idle /\ error (context s') = None /\
     lastGeneratedText (context s') = Some t).
  { intros [v ctx cs] t Hv; cbn in Hv; subst v; cbn; auto. }
  split; [exact M|].
  intros inputs g t Hv Ht Hg.
  destruct (settle_in_generating inputs g Hv) as [a [_ ->]].
  unfold generateContinuation; rewrite Hg.
  destruct t as [|c r]; [now elim Ht|]. cbn [Js.truthy negb snd actor_event Js.or_empty].
  now apply M.
Qed.

Lemma success_gives_idle_with_text_witness :
  (value while_generating = generating /\
   value (transition while_generating (DoneActor turning_orange)) = idle /\
   error (context (transition while_generating (DoneActor turning_orange))) = None /\
   lastGeneratedText (context (transition while_generating (DoneActor turning_orange)))
   = Some turning_orange)
  /\
  (value (run [Send (GENERATE sky_was)]) = generating /\
   lastGeneratedText
     (context (system_step (run [Send (GENERATE sky_was)])
                 (Settle (fun _ => Response (Some turning_orange)))))
   = Some turning_orange).
Proof.
  split.
  - split; [reflexivity|].
    exact (proj1 success_gives_idle_with_text while_generating turning_orange eq_refl).
  - split; [reflexivity|].
    refine (proj2 (proj2 (proj2 success_gives_idle_with_text [Send (GENERATE sky_was)]
              (fun _ => Response (Some turning_orange)) turning_orange
              eq_refl _ (fun _ => eq_refl)))).
    discriminate.
Defined.

(** C3, as amended. A provider failure takes the machine from
    [generating] to [failure]; [error] becomes the message of the thrown
    value when that value is an instance of [Error] (whatever the message,
    the empty string included), and the fixed fallback when it is not an
    instance of [Error] (also when it is an object with a [message]); and
    [lastGeneratedText] is what it was before the attempt began. *)
Theorem failure_sets_error_keeps_text :
  (forall s e, value s = generating ->
     let s' := transition s (ErrorActor e) in
     value s' = failure /\
     lastGeneratedText (context s') = lastGeneratedText (context s) /\
     match e with
     | Js.ErrorInstance message => error (context s') = Some message
     | Js.NotAnError _ => error (context s') = Some unknown_error
     end)
  /\
  (forall s0 text e, value s0 = idle \/ value s0 = failure ->
     let s1 := transition s0 (Sent (GENERATE text)) in
     let s2 := transition s1 (ErrorActor e) in
     value s1 = generating /\ value s2 = failure /\
     lastGeneratedText (context s2) = lastGeneratedText (context s0))
  /\
  (forall inputs g e,
     value (run inputs) = generating ->
     (forall request, g request = Throws e) ->
     system_step (run inputs) (Settle g) = transition (run inputs) (ErrorActor e)).
Proof.
  split; [|split].
  - intros [v ctx cs] e Hv; cbn in Hv; subst v; cbn.
    destruct e; auto.
  - intros [v ctx cs] text e [Hv|Hv]; cbn in Hv; subst v; cbn; auto.
  - intros inputs g e Hv Hg.
    destruct (settle_in_generating inputs g Hv) as [a [_ ->]].
    unfold generateContinuation; now rewrite Hg.
Qed.

Lemma failure_sets_error_keeps_text_witness :
  value while_generating = generating /\
  value after_failure = failure /\
  error (context after_failure) = Some rate_limited /\
  error (context (transition while_generating (ErrorActor (Js.NotAnError (Js.Str rate_limited)))))
  = Some unknown_error /\
  lastGeneratedText
    (context (transition (transition after_failure (Sent (GENERATE sky_was)))
                (ErrorActor (Js.ErrorInstance rate_limited))))
  = lastGeneratedText (context after_failure).
Proof.
  pose proof (proj1 failure_sets_error_keeps_text while_generating
                (Js.ErrorInstance rate_limited) eq_refl) as [H1 [_ H2]].
  pose proof (proj1 failure_sets_error_keeps_text while_generating
                (Js.NotAnError (Js.Str rate_limited)) eq_refl) as [_ [_ H3]].
  pose proof (proj1 (proj2 failure_sets_error_keeps_text) after_failure sky_was
                (Js.ErrorInstance rate_limited) (or_intror eq_refl)) as [_ [_ H4]].
  repeat split; assumption.
Defined.

(** C3 as the spec words it fails on the code twice over.  A thrown object
    that is not an [Error] carries the message [rate limited], and [error]
    becomes the fallback; an [Error] made without a message carries none,
    and [error] becomes the empty string, not the fallback. *)
Lemma failure_message_counterexample :
  value while_generating = generating
  /\ (carried_message plain_object_with_message = Some rate_limited
      /\ error (context (transition while_generating (ErrorActor plain_object_with_message)))
         = Some unknown_error
      /\ error (context (transition while_generating (ErrorActor plain_object_with_message)))
         <> Some (spec_error plain_object_with_message))
  /\ (carried_message (Js.ErrorInstance []) = None
      /\ error (context (transition while_generating (ErrorActor (Js.ErrorInstance []))))
         = Some []
      /\ error (context (transition while_generating (ErrorActor (Js.ErrorInstance []))))
         <> Some (spec_error (Js.ErrorInstance []))).
Proof.
  split; [reflexivity|split]; (split; [reflexivity|split; [reflexivity|]]);
    vm_compute; discriminate.
Qed.

(** Where the two readings meet: for an [Error] with a message that is not
    empty, and for a thrown value that carries no message and is not an
    [Error], the code writes what the spec's words ask for. *)
Lemma setError_meets_the_spec_words ctx e :
  (exists c r, e = Js.ErrorInstance (c :: r))
  \/ (exists v, e = Js.NotAnError v /\ carried_message e = None) ->
  error (setError ctx (ErrorActor e)) = Some (spec_error e).
Proof.
  intros [[c [r ->]]|[v [-> H]]]; [reflexivity|].
  unfold spec_error. now rewrite H.
Qed.

(** C4. [GENERATE] has a handler in [idle] and [failure] only; in
    [generating] it changes neither the state value, nor the context, nor the
    running actor; and in every run of the machine at most one actor runs,
    and one runs exactly while the machine is in [generating]. *)
Theorem generate_only_from_idle_or_failure :
  (forall v, on v tGENERATE <> None <-> v = idle \/ v = failure)
  /\
  (forall s text, value s = generating -> transition s (Sent (GENERATE text)) = s)
  /\
  (forall evs,
     List.length (children (run_machine evs)) <= 1 /\
     (List.length (children (run_machine evs)) = 1 <-> value (run_machine evs) = generating)).
Proof.
  split; [|split].
  - intros v; destruct v; cbn; split; intros H; auto; try discriminate;
      try (now elim H); destruct H; discriminate.
  - intros [v ctx cs] text Hv; cbn in Hv; subst v; reflexivity.
  - intros evs. pose proof (run_machine_well_formed evs) as W.
    unfold well_formed in W.
    destruct (value (run_machine evs)) eqn:Hv; destruct W as [Hc _].
    + rewrite Hc; cbn; split; [lia|split; discriminate].
    + destruct Hc as [a Hc]; rewrite Hc; cbn; split; [lia|split; reflexivity].
    + rewrite Hc; cbn; split; [lia|split; discriminate].
Qed.

Lemma generate_only_from_idle_or_failure_witness :
  value while_generating = generating /\
  transition while_generating (Sent (GENERATE turning_orange)) = while_generating /\
  on idle tGENERATE <> None.
Proof.
  split; [reflexivity|split].
  - exact (proj1 (proj2 generate_only_from_idle_or_failure)
             while_generating turning_orange eq_refl).
  - exact (proj2 (proj1 generate_only_from_idle_or_failure idle) (or_introl eq_refl)).
Defined.

(** C7. In [failure], [RETRY] clears [error] and goes to [idle] without
    starting an actor; [GENERATE] clears [error] and goes in one step to
    [generating], starting one actor whose input is the event's text. *)
Theorem failure_retry_and_generate :
  forall s text, value s = failure ->
    (let s' := transition s (Sent RETRY) in
     value s' = idle /\ error (context s') = None /\
     lastGeneratedText (context s') = lastGeneratedText (context s) /\
     children s' = children s)
    /\
    (let s' := transition s (Sent (GENERATE text)) in
     value s' = generating /\ error (context s') = None /\
     lastGeneratedText (context s') = lastGeneratedText (context s) /\
     children s' = children s ++ [{| currentText_of := text |}]).
Proof.
  intros [v ctx cs] text Hv; cbn in Hv; subst v; cbn. repeat split.
Qed.

Lemma failure_retry_and_generate_witness :
  value after_failure = failure /\
  transition after_failure (Sent RETRY)
  = {| value := idle;
       context := {| error := None; lastGeneratedText := None |};
       children := [] |} /\
  children (transition after_failure (Sent (GENERATE turning_orange)))
  = [{| currentText_of := turning_orange |}].
Proof.
  pose proof (failure_retry_and_generate after_failure turning_orange eq_refl)
    as [[H1 [H2 [H3 H4]]] [_ [_ [_ H5]]]].
  split; [reflexivity|split]; [|exact H5].
  destruct (transition after_failure (Sent RETRY)) as [v [e t] cs]; cbn in *.
  now subst.
Defined.

(** C8. In every snapshot the machine reaches with [error = null], [RETRY]
    changes nothing: neither the state value nor the context. *)
Theorem retry_without_error_is_noop :
  forall evs,
    error (context (run_machine evs)) = None ->
    transition (run_machine evs) (Sent RETRY) = run_machine evs.
Proof.
  intros evs He. pose proof (run_machine_well_formed evs) as W.
  unfold well_formed in W. unfold transition.
  destruct (value (run_machine evs)); cbn; try reflexivity.
  destruct W as [_ W]; now elim W.
Qed.

Lemma retry_without_error_is_noop_witness :
  error (context (run_machine [Sent (GENERATE sky_was); DoneActor turning_orange])) = None /\
  transition (run_machine [Sent (GENERATE sky_was); DoneActor turning_orange]) (Sent RETRY)
  = run_machine [Sent (GENERATE sky_was); DoneActor turning_orange].
Proof.
  split; [reflexivity|].
  exact (retry_without_error_is_noop
           [Sent (GENERATE sky_was); DoneActor turning_orange] eq_refl).
Defined.

(** C10. [RESET] is declared in the event type and handled by no state: in
    every state and with every context, sending it leaves the snapshot as it
    was. *)
Theorem reset_is_ignored :
  (forall v, on v tRESET = None) /\
  (forall s, transition s (Sent RESET) = s).
Proof.
  split.
  - now intros [].
  - intros [[] ctx cs]; reflexivity.
Qed.

(** ** The adapter *)



(** ** The entry point *)

Lemma getContent_trimmed h : Js.trim (getContent h) = getContent h.
Proof.
  unfold getContent; destruct (viewRef h); [apply trim_idem|reflexivity].
Qed.

(** C5. When the document's text is empty after trimming,
    [handleContinueWriting] sends nothing: the machine's snapshot (state
    value, context, running actors) is what it was, and only the alert is
    shown.  When the trimmed text is not empty, it sends [GENERATE] with that
    trimmed text, once. *)
Theorem continue_writing_needs_text :
  forall app view,
    editorRef app = Some {| viewRef := Some view |} ->
    let text := Js.trim (descendants_text (doc view)) in
    let app' := handleContinueWriting app in
    (text = [] ->
       sent app' = sent app /\ state app' = state app /\
       alerts app' = alerts app ++ [please_type])
    /\
    (text <> [] ->
       sent app' = sent app ++ [GENERATE text] /\
       state app' = transition (state app) (Sent (GENERATE text)) /\
       alerts app' = alerts app).
Proof.
  intros app view Href text app'. subst app'. unfold handleContinueWriting.
  rewrite Href, getContent_trimmed.
  change (getContent {| viewRef := Some view |}) with text.
  destruct text as [|c r]; cbn; split; intros H; try discriminate;
    try (now elim H); repeat split.
Qed.

Lemma continue_writing_needs_text_witness :
  (Js.trim (descendants_text empty_doc) = [] /\
   sent (handleContinueWriting (first_render (Some (mounted empty_doc)))) = [] /\
   state (handleContinueWriting (first_render (Some (mounted empty_doc)))) = editorMachine)
  /\
  (Js.trim (descendants_text sky_doc) = sky_was /\
   sent (handleContinueWriting (first_render (Some (mounted sky_doc))))
   = [GENERATE sky_was] /\
   state (handleContinueWriting (first_render (Some (mounted sky_doc))))
   = while_generating).
Proof.
  split.
  - destruct (proj1 (continue_writing_needs_text
                       (first_render (Some (mounted empty_doc)))
                       {| doc := empty_doc; inserted := []; focused := true |}
                       eq_refl) eq_refl) as [H1 [H2 _]].
    split; [reflexivity|split; assumption].
  - assert (N : Js.trim (descendants_text sky_doc) <> []) by (vm_compute; discriminate).
    destruct (proj2 (continue_writing_needs_text
                       (first_render (Some (mounted sky_doc)))
                       {| doc := sky_doc; inserted := []; focused := true |}
                       eq_refl) N) as [H1 [H2 _]].
    split; [reflexivity|split; assumption].
Defined.

(** ** The sync bridge *)

Section SyncBridge.

Variable insertTextAtEnd : Js.str -> Node -> Node.

Local Abbreviation obs := (observe insertTextAtEnd).
Local Abbreviation obs_all := (observe_all insertTextAtEnd).

Lemma StateValue_eqb_eq a b : StateValue_eqb a b = true <-> a = b.
Proof. destruct a, b; cbn; split; intros H; congruence. Qed.

Lemma fires_spec prev s :
  fires prev s = true <->
  prev = generating /\ value s = idle /\ Js.truthy (lastGeneratedText (context s)) = true.
Proof.
  unfold fires, matches.
  rewrite !andb_true_iff, !StateValue_eqb_eq. tauto.
Qed.

Lemma observe_fires app s view :
  editorRef app = Some {| viewRef := Some view |} ->
  fires (previousStateValue app) s = true ->
  insertions (obs app s)
  = insertions app ++ [Js.or_empty (lastGeneratedText (context s))].
Proof.
  intros Href Hf. unfold observe, syncEffect, insertions; cbn.
  unfold fires in Hf; rewrite Hf, Href; reflexivity.
Qed.

Lemma observe_idle app s :
  fires (previousStateValue app) s = false ->
  editorRef (obs app s) = editorRef app.
Proof.
  intros Hf. unfold observe, syncEffect; cbn.
  unfold fires in Hf; now rewrite Hf.
Qed.

Lemma observe_previous app s : previousStateValue (obs app s) = value s.
Proof. reflexivity. Qed.

Lemma observe_length app s :
  List.length (insertions (obs app s))
  <= List.length (insertions app)
     + (if StateValue_eqb (previousStateValue app) generating && matches s idle
        then 1 else 0).
Proof.
  destruct (fires (previousStateValue app) s) eqn:Hf.
  - pose proof Hf as Hg. unfold fires in Hg.
    apply andb_true_iff in Hg; destruct Hg as [-> _].
    unfold insertions at 2. destruct (editorRef app) as [[[view|]]|] eqn:Href.
    + rewrite (observe_fires app s view Href Hf).
      unfold insertions; rewrite Href, length_app; cbn; lia.
    + unfold observe, syncEffect, insertions, insertContent; cbn.
      unfold fires in Hf; rewrite Hf, Href; cbn; lia.
    + unfold observe, syncEffect, insertions; cbn.
      unfold fires in Hf; rewrite Hf, Href; cbn; lia.
  - unfold insertions; rewrite (observe_idle app s Hf); lia.
Qed.

Lemma observe_all_length snapshots : forall app,
  List.length (insertions (obs_all app snapshots))
  <= List.length (insertions app) + edges (previousStateValue app) snapshots.
Proof.
  induction snapshots as [|s r IH]; intros app; cbn [edges]; [cbn; lia|].
  change (obs_all app (s :: r)) with (obs_all (obs app s) r).
  specialize (IH (obs app s)).
  change (previousStateValue (obs app s)) with (value s) in IH.
  pose proof (observe_length app s). lia.
Qed.

Lemma insertions_unchanged app app' t :
  editorRef app' = editorRef app -> insertions app' <> insertions app ++ [t].
Proof.
  unfold insertions; intros ->. intros H.
  apply (f_equal (@List.length Js.str)) in H. rewrite length_app in H. cbn in H. lia.
Qed.

(** C1. The effect calls [insertContent] exactly when the state value it
    remembered is [generating], the snapshot it now sees is [idle], and
    [lastGeneratedText] is not [null]; it then appends that text, once.
    Hence nothing is inserted on a step that is not [generating -> idle]
    (such as [generating -> failure], [idle -> idle], [failure -> idle]),
    and over any sequence of observed snapshots there are no more
    insertions than [generating -> idle] edges. *)
Theorem sync_bridge_inserts_on_success_edge :
  forall app view,
    editorRef app = Some {| viewRef := Some view |} ->
    (forall inputs,
       let s := run inputs in
       let edge := previousStateValue app = generating /\ value s = idle
                   /\ lastGeneratedText (context s) <> None in
       ((exists t, insertions (obs app s) = insertions app ++ [t]) <-> edge)
       /\ (edge -> insertions (obs app s)
                   = insertions app ++ [Js.or_empty (lastGeneratedText (context s))])
       /\ (~ edge -> editorRef (obs app s) = editorRef app)
       /\ previousStateValue (obs app s) = value s)
    /\
    (forall s,
       previousStateValue app <> generating \/ value s <> idle ->
       editorRef (obs app s) = editorRef app)
    /\
    (forall snapshots,
       List.length (insertions (obs_all app snapshots))
       <= List.length (insertions app) + edges (previousStateValue app) snapshots).
Proof.
  intros app view Href. split; [|split].
  - intros inputs s edge.
    assert (E : fires (previousStateValue app) s = true <-> edge).
    { pose proof (truthy_not_null _ (run_text_not_empty inputs)) as T.
      change (run inputs) with s in T.
      rewrite fires_spec. unfold edge. tauto. }
    assert (Y : edge -> insertions (obs app s)
                = insertions app ++ [Js.or_empty (lastGeneratedText (context s))]).
    { intros He. apply (observe_fires app s view Href), E, He. }
    assert (N : ~ edge -> editorRef (obs app s) = editorRef app).
    { intros He. apply observe_idle.
      destruct (fires (previousStateValue app) s); [|reflexivity].
      elim He; now apply E. }
    split; [split|split; [exact Y|split; [exact N|reflexivity]]].
    + intros [t Ht]. destruct (fires (previousStateValue app) s) eqn:Hf.
      * now apply E.
      * exfalso. exact (insertions_unchanged _ _ t (observe_idle app s Hf) Ht).
    + intros He. eexists. exact (Y He).
  - intros s Hs. apply observe_idle.
    destruct (fires (previousStateValue app) s) eqn:Hf; [|reflexivity].
    apply fires_spec in Hf. destruct Hf as [H1 [H2 _]]. destruct Hs; contradiction.
  - intros snapshots. apply observe_all_length.
Qed.

End SyncBridge.

Lemma sync_bridge_inserts_on_success_edge_witness :
  editorRef app_while_generating = Some (mounted sky_doc) /\
  previousStateValue app_while_generating = generating /\
  value (run scenario_A) = idle /\
  insertions (observe append_paragraph app_while_generating (run scenario_A))
  = [turning_orange] /\
  editorRef (observe append_paragraph app_while_generating after_failure)
  = editorRef app_while_generating.
Proof.
  destruct (sync_bridge_inserts_on_success_edge append_paragraph
              app_while_generating
              {| doc := sky_doc; inserted := []; focused := true |} eq_refl)
    as [H1 [H2 _]].
  destruct (H1 scenario_A) as [_ [H3 _]].
  split; [reflexivity|split; [reflexivity|split; [reflexivity|split]]].
  - apply H3. split; [reflexivity|split; [reflexivity|discriminate]].
  - apply H2. right; discriminate.
Defined.

(** The effect tests the text for truthiness: an empty string in
    [lastGeneratedText] would not be inserted.  The adapter never produces
    one ([run_text_not_empty]). *)
Lemma empty_text_is_not_inserted insertTextAtEnd app s :
  lastGeneratedText (context s) = Some [] ->
  editorRef (observe insertTextAtEnd app s) = editorRef app.
Proof.
  intros H. apply observe_idle. unfold fires. rewrite H; cbn.
  now rewrite andb_false_r.
Qed.

(** ** Which attempt wrote which field *)

Lemma ghost_transition_ok sp ev : provenance_ok sp -> provenance_ok (ghost_transition sp ev).
Proof.
  destruct sp as [[v ctx cs] [n ef tf]]. unfold provenance_ok, ghost_transition, transition.
  cbn. intros [He [Ht Hv]].
  destruct v, ev as [[t| |]|o|e]; cbn; try (split; [exact He|split; [exact Ht|exact Hv]]);
    destruct Hv as [Hv1 Hv2];
    (split; [split; intros; (reflexivity || discriminate)|]);
    (split; [try exact Ht; split; intros; discriminate|]);
    (split; [reflexivity|]);
    intros m Hm; try (injection Hm as <-; lia); specialize (Hv2 m Hm); lia.
Qed.

Lemma ghost_run_ok evs : provenance_ok (ghost_run evs).
Proof.
  unfold ghost_run; apply (fold_left_invariant provenance_ok).
  - intros; now apply ghost_transition_ok.
  - cbn. repeat split; intros; discriminate.
Qed.

Lemma ghost_run_erases evs : fst (ghost_run evs) = run_machine evs.
Proof.
  unfold ghost_run, run_machine.
  generalize editorMachine, {| attempts := 0; errorFrom := None; textFrom := None |}.
  induction evs as [|ev evs IH]; intros s p; [reflexivity|].
  cbn [fold_left]. unfold ghost_transition at 2. apply IH.
Qed.

(** C9. The success action writes [lastGeneratedText] and clears [error]
    in one assignment, and it is the only action of the success transition;
    the failure action writes [error] and leaves [lastGeneratedText] as it
    was, and it is the only action of the failure transition.  So in every
    snapshot the machine reaches, [error] and [lastGeneratedText] are never
    both the result of the same attempt. *)
Theorem error_and_text_never_from_same_attempt :
  (forall ctx ev,
     error (setLastGenerated ctx ev) = None /\
     lastGeneratedText (setLastGenerated ctx ev) = event_output ev)
  /\
  (forall ctx ev,
     error (setError ctx ev) <> None /\
     lastGeneratedText (setError ctx ev) = lastGeneratedText ctx)
  /\
  on generating tDone = Some {| target := idle; actions := [SetLastGenerated] |}
  /\
  on generating tError = Some {| target := failure; actions := [SetError] |}
  /\
  (forall evs,
     let s := fst (ghost_run evs) in
     let p := snd (ghost_run evs) in
     s = run_machine evs /\
     (errorFrom p = None <-> error (context s) = None) /\
     (textFrom p = None <-> lastGeneratedText (context s) = None) /\
     forall n, ~ (errorFrom p = Some n /\ textFrom p = Some n)).
Proof.
  repeat (split; [try reflexivity; intros; split; (reflexivity || discriminate)|]).
  intros evs s p. pose proof (ghost_run_ok evs) as H.
  pose proof (ghost_run_erases evs) as E.
  subst s p. destruct (ghost_run evs) as [s p]. cbn [fst snd] in *.
  destruct H as [He [Ht Hv]].
  split; [exact E|split; [exact He|split; [exact Ht|]]].
  intros n [H1 H2].
  destruct (value s); destruct Hv as [Hv1 Hv2]; try congruence.
  specialize (Hv2 n H2). rewrite H1 in Hv1. injection Hv1 as ->. lia.
Qed.

Lemma error_and_text_never_from_same_attempt_witness :
  let evs := [Sent (GENERATE sky_was); DoneActor turning_orange;
              Sent (GENERATE sky_was); ErrorActor (Js.ErrorInstance rate_limited)] in
  error (context (run_machine evs)) = Some rate_limited /\
  lastGeneratedText (context (run_machine evs)) = Some turning_orange /\
  errorFrom (snd (ghost_run evs)) = Some 2 /\
  textFrom (snd (ghost_run evs)) = Some 1 /\
  forall n, ~ (errorFrom (snd (ghost_run evs)) = Some n /\
               textFrom (snd (ghost_run evs)) = Some n).
Proof.
  intros evs.
  destruct (proj2 (proj2 (proj2 (proj2 error_and_text_never_from_same_attempt))) evs)
    as [_ [_ [_ H]]].
  repeat split; exact H.
Defined.

(** ** The scenarios, run *)

Example trim_strips_both_ends :
  Js.trim (Js.lit "  The sky was " ++ [10; 160; 8232]%N) = sky_was.
Proof. reflexivity. Qed.

Example getContent_joins_paragraphs :
  getContent (mounted (ElemNode "doc" [ElemNode "paragraph" [TextNode sky_was];
                                       ElemNode "paragraph" [TextNode turning_orange]]))
  = sky_was ++ [10%N] ++ turning_orange.
Proof. reflexivity. Qed.

Example scenario_A_ends_idle :
  run scenario_A
  = {| value := idle;
       context := {| error := None; lastGeneratedText := Some turning_orange |};
       children := [] |}.
Proof. reflexivity. Qed.

Example scenario_C_ends_in_failure :
  run [Send (GENERATE sky_was); Settle (fun _ => Throws (Js.ErrorInstance rate_limited))]
  = after_failure
  /\ error (context after_failure) = Some rate_limited
  /\ lastGeneratedText (context after_failure) = None.
Proof. repeat split. Qed.

Example scenario_D_retry :
  transition after_failure (Sent RETRY) = editorMachine.
Proof. reflexivity. Qed.

Example scenario_E_generate_from_failure :
  transition after_failure (Sent (GENERATE sky_was)) = while_generating.
Proof. reflexivity. Qed.

(** * The rest of the component *)

(** ** What [getContent] reads *)

Lemma Node_forall_ind (P : Node -> Prop) :
  (forall text, P (TextNode text)) ->
  (forall name content, Forall P content -> P (ElemNode name content)) ->
  forall n, P n.
Proof.
  intros Ht He. fix IH 1. intros [text|name content]; [apply Ht|apply He].
  induction content as [|c r IHr]; constructor; [apply IH|exact IHr].
Qed.

Lemma visit_ElemNode name content :
  visit (ElemNode name content)
  = (if String.eqb name "paragraph" then [10%N] else [])
    ++ List.concat (List.map visit content).
Proof.
  cbn [visit]. f_equal.
  induction content as [|c r IH]; [reflexivity|].
  cbn [List.map List.concat]. now rewrite <- IH.
Qed.

Lemma subtree_ElemNode name content :
  subtree (ElemNode name content)
  = ElemNode name content :: List.concat (List.map subtree content).
Proof.
  cbn [subtree]. f_equal.
  induction content as [|c r IH]; [reflexivity|].
  cbn [List.map List.concat]. now rewrite <- IH.
Qed.

Lemma concat_map_ext_Forall {A B} (f g : A -> list B) (l : list A) :
  Forall (fun a => f a = g a) l ->
  List.concat (List.map f l) = List.concat (List.map g l).
Proof.
  induction 1 as [|a l Ha _ IH]; [reflexivity|].
  cbn [List.map List.concat]. now rewrite Ha, IH.
Qed.

Lemma visit_subtree n : visit n = List.concat (List.map appended (subtree n)).
Proof.
  induction n as [text|name content IH] using Node_forall_ind.
  - cbn. now rewrite app_nil_r.
  - rewrite visit_ElemNode, subtree_ElemNode.
    cbn [List.map List.concat appended]. apply (f_equal (app _)).
    etransitivity;
      [exact (concat_map_ext_Forall visit
                (fun n => List.concat (List.map appended (subtree n))) content IH)|].
    clear IH. induction content as [|c r IHr]; [reflexivity|].
    cbn [List.map List.concat]. now rewrite map_app, concat_app, IHr.
Qed.

Lemma descendants_text_concat d :
  descendants_text d = List.concat (List.map appended (descendants d)).
Proof.
  destruct d as [text|name content]; [reflexivity|].
  cbn [descendants_text descendants].
  induction content as [|c r IH]; [reflexivity|].
  cbn [List.map List.concat]. now rewrite map_app, concat_app, IH, visit_subtree.
Qed.

(** X1. The text [getContent] builds is the concatenation, over all nodes
    below the root in document order (a node before its content), of the
    node's text for a text node, a line feed for a paragraph, and nothing
    for any other node; [getContent] returns it trimmed. *)
Theorem getContent_by_node view :
  descendants_text (doc view) = List.concat (List.map appended (descendants (doc view)))
  /\ getContent {| viewRef := Some view |}
     = Js.trim (List.concat (List.map appended (descendants (doc view)))).
Proof.
  unfold getContent; cbn [viewRef]. now rewrite <- descendants_text_concat.
Qed.

(** ** Trimming, in full *)

Arguments Js.isWhiteSpace : simpl never.

Lemma trimStart_split s : exists l, s = l ++ Js.trimStart s /\ blank l = true.
Proof.
  induction s as [|c s [l [Hs Hl]]]; [now exists []|].
  cbn [Js.trimStart]. destruct (Js.isWhiteSpace c) eqn:W.
  - exists (c :: l). cbn [blank forallb app]. fold (blank l). rewrite W, Hl.
    split; [now rewrite <- Hs|reflexivity].
  - now exists [].
Qed.

Lemma trimEnd_split s : exists r, s = Js.trimEnd s ++ r /\ blank r = true.
Proof.
  induction s as [|c s [r [Hs Hr]]]; [now exists []|].
  rewrite trimEnd_step. destruct (Js.trimEnd s) as [|d t] eqn:E.
  - cbn in Hs. subst r. destruct (Js.isWhiteSpace c) eqn:W.
    + exists (c :: s). cbn [blank forallb app]. fold (blank s). now rewrite W, Hr.
    + exists s. now split.
  - exists r. split; [cbn; now rewrite Hs at 1|exact Hr].
Qed.

Lemma trimEnd_last s :
  Js.trimEnd s <> [] -> Js.isWhiteSpace (last (Js.trimEnd s) 0%N) = false.
Proof.
  induction s as [|c s IH]; [intros H; now elim H|].
  rewrite trimEnd_step. destruct (Js.trimEnd s) as [|d t] eqn:E.
  - destruct (Js.isWhiteSpace c) eqn:W; [intros H; now elim H|intros _; exact W].
  - intros _. change (last (c :: d :: t) 0%N) with (last (d :: t) 0%N).
    apply IH; discriminate.
Qed.

Lemma trim_head s : Js.trim s <> [] -> Js.isWhiteSpace (hd 0%N (Js.trim s)) = false.
Proof.
  unfold Js.trim. destruct (Js.trimStart s) as [|c r] eqn:E; [intros H; now elim H|].
  pose proof (trimStart_head _ _ s E) as W. now rewrite (trimEnd_cons c r W).
Qed.

Lemma blank_app a b : blank (a ++ b) = blank a && blank b.
Proof. apply forallb_app. Qed.

Lemma trimEnd_blank s : blank s = true -> Js.trimEnd s = [].
Proof.
  induction s as [|c s IH]; [reflexivity|]. cbn [blank forallb].
  intros H; apply andb_true_iff in H; destruct H as [W H].
  rewrite trimEnd_step, (IH H). now rewrite W.
Qed.

Lemma trim_empty_iff s : Js.trim s = [] <-> blank s = true.
Proof.
  destruct (trimStart_split s) as [l [Hs Hl]].
  destruct (trimEnd_split (Js.trimStart s)) as [r [Ht Hr]]. fold (Js.trim s) in Ht.
  split; intros H.
  - rewrite Hs, Ht, H, !blank_app, Hl, Hr. reflexivity.
  - unfold Js.trim. apply trimEnd_blank.
    rewrite Hs, blank_app in H. apply andb_true_iff in H. tauto.
Qed.

(** X2. What [getContent] returns is the document's text without the
    white space at its two ends and with nothing else removed: the text is
    blank code units, then the result, then blank code units, and a
    non-empty result neither begins nor ends with a blank code unit. *)
Theorem getContent_strips_the_ends view :
  let raw := descendants_text (doc view) in
  let got := getContent {| viewRef := Some view |} in
  (exists l r, raw = l ++ got ++ r /\ blank l = true /\ blank r = true)
  /\ (got <> [] ->
      Js.isWhiteSpace (hd 0%N got) = false /\ Js.isWhiteSpace (last got 0%N) = false).
Proof.
  cbn zeta. unfold getContent; cbn [viewRef].
  set (raw := descendants_text (doc view)). split.
  - destruct (trimStart_split raw) as [l [Hs Hl]].
    destruct (trimEnd_split (Js.trimStart raw)) as [r [Ht Hr]].
    exists l, r. fold (Js.trim raw) in Ht. now rewrite <- Ht.
  - intros H. split; [now apply trim_head|now apply trimEnd_last].
Qed.

Lemma getContent_strips_the_ends_witness :
  getContent (mounted sky_doc) <> [] /\
  Js.isWhiteSpace (hd 0%N (getContent (mounted sky_doc))) = false /\
  Js.isWhiteSpace (last (getContent (mounted sky_doc)) 0%N) = false.
Proof.
  assert (N : getContent (mounted sky_doc) <> []) by (vm_compute; discriminate).
  split; [exact N|].
  exact (proj2 (getContent_strips_the_ends
                  {| doc := sky_doc; inserted := []; focused := true |}) N).
Defined.

Lemma forallb_of_map {A B} (f : B -> bool) (g : A -> B) (l : list A) :
  forallb f (List.map g l) = forallb (fun a => f (g a)) l.
Proof.
  induction l as [|a l IH]; [reflexivity|]. cbn [List.map forallb]. now rewrite IH.
Qed.

Lemma forallb_same {A} (f g : A -> bool) (l : list A) :
  (forall a, f a = g a) -> forallb f l = forallb g l.
Proof.
  intros H; induction l as [|a l IH]; [reflexivity|].
  cbn [forallb]. now rewrite H, IH.
Qed.

Lemma blank_concat (l : list Js.str) :
  blank (List.concat l) = forallb blank l.
Proof.
  induction l as [|a l IH]; [reflexivity|].
  cbn [List.concat forallb]. now rewrite blank_app, IH.
Qed.

Lemma blank_descendants_text d :
  blank (descendants_text d) = no_visible_text d.
Proof.
  unfold no_visible_text. rewrite descendants_text_concat, blank_concat, forallb_of_map.
  apply forallb_same. intros [text|name content]; [reflexivity|].
  cbn [appended]. now destruct (String.eqb name "paragraph").
Qed.

Lemma handleContinueWriting_cases app view :
  editorRef app = Some {| viewRef := Some view |} ->
  (no_visible_text (doc view) = true ->
   handleContinueWriting app = alert please_type app)
  /\
  (no_visible_text (doc view) = false ->
   handleContinueWriting app
   = send (GENERATE (getContent {| viewRef := Some view |})) app
   /\ getContent {| viewRef := Some view |} <> []).
Proof.
  intros Href. unfold handleContinueWriting. rewrite Href, getContent_trimmed.
  pose proof (trim_empty_iff (descendants_text (doc view))) as T.
  rewrite blank_descendants_text in T.
  change (Js.trim (descendants_text (doc view)))
    with (getContent {| viewRef := Some view |}) in T.
  destruct (getContent {| viewRef := Some view |}) as [|c r]; cbn [Js.truthy negb]; split.
  - reflexivity.
  - intros H. destruct T as [T _]. rewrite (T eq_refl) in H. discriminate.
  - intros H. destruct T as [_ T]. specialize (T H). discriminate.
  - intros _. split; [reflexivity|discriminate].
Qed.

(** X3. With a mounted editor, a click on the button handler sends
    [GENERATE] exactly when some text node of the document holds a code unit
    that is not white space; paragraphs, however many, do not count.
    Otherwise it only shows the alert. *)
Theorem continue_writing_needs_visible_text app view :
  editorRef app = Some {| viewRef := Some view |} ->
  (no_visible_text (doc view) = true ->
   handleContinueWriting app = alert please_type app)
  /\
  (no_visible_text (doc view) = false ->
   handleContinueWriting app
   = send (GENERATE (getContent {| viewRef := Some view |})) app
   /\ getContent {| viewRef := Some view |} <> []).
Proof. exact (handleContinueWriting_cases app view). Qed.

Lemma continue_writing_needs_visible_text_witness :
  handleContinueWriting (first_render (Some (mounted blank_doc)))
  = alert please_type (first_render (Some (mounted blank_doc)))
  /\
  handleContinueWriting (first_render (Some (mounted sky_doc)))
  = send (GENERATE sky_was) (first_render (Some (mounted sky_doc))).
Proof.
  split.
  - exact (proj1 (continue_writing_needs_visible_text
                    (first_render (Some (mounted blank_doc)))
                    {| doc := blank_doc; inserted := []; focused := true |} eq_refl)
             eq_refl).
  - exact (proj1 (proj2 (continue_writing_needs_visible_text
                    (first_render (Some (mounted sky_doc)))
                    {| doc := sky_doc; inserted := []; focused := true |} eq_refl)
                    eq_refl)).
Defined.

(** X4. Without an editor handle the button handler does nothing at all;
    with a handle whose view is gone it reads the empty text, shows the
    alert and sends nothing. *)
Theorem continue_writing_without_editor app :
  (editorRef app = None -> handleContinueWriting app = app)
  /\
  (editorRef app = Some {| viewRef := None |} ->
   handleContinueWriting app = alert please_type app
   /\ sent (handleContinueWriting app) = sent app
   /\ state (handleContinueWriting app) = state app).
Proof.
  unfold handleContinueWriting. split; intros ->; [reflexivity|]. now cbn.
Qed.

Lemma continue_writing_without_editor_witness :
  handleContinueWriting (first_render None) = first_render None /\
  alerts (handleContinueWriting (first_render (Some {| viewRef := None |})))
  = [please_type].
Proof.
  split.
  - exact (proj1 (continue_writing_without_editor (first_render None)) eq_refl).
  - destruct (proj2 (continue_writing_without_editor
                       (first_render (Some {| viewRef := None |}))) eq_refl) as [H _].
    now rewrite H.
Defined.

(** ** The adapter, in full *)

(** X5. [generateContinuation] fulfils exactly when the provider answers
    the one request made (model [gemini-2.5-flash], the prompt built from the
    text) with a non-empty text, and it fulfils with that very text. *)
Theorem generateContinuation_fulfils_iff g currentText text :
  snd (generateContinuation g currentText) = Fulfilled text
  <->
  g {| model := "gemini-2.5-flash"; contents := prompt currentText |} = Response (Some text)
  /\ text <> [].
Proof.
  unfold generateContinuation.
  destruct (g _) as [[[|c r]|]|e]; cbn; split;
    try (intros H; discriminate H);
    try (intros [H _]; discriminate H).
  - intros [H N]. injection H as <-. now elim N.
  - intros H. injection H as <-. split; [reflexivity|discriminate].
  - intros [H _]. now injection H as <-.
Qed.

(** X6. Whatever [generateContinuation] rejects with is written once to
    the console, with the label [Gemini API Error:], and nothing is written
    when it fulfils; a value the provider throws is rethrown as it is. *)
Theorem generateContinuation_logs_what_it_rejects g currentText :
  (forall e, snd (generateContinuation g currentText) = Rejected e ->
             fst (generateContinuation g currentText) = [(Js.lit "Gemini API Error:", e)])
  /\ (forall text, snd (generateContinuation g currentText) = Fulfilled text ->
                   fst (generateContinuation g currentText) = [])
  /\ (forall e, g {| model := "gemini-2.5-flash"; contents := prompt currentText |} = Throws e ->
                snd (generateContinuation g currentText) = Rejected e).
Proof.
  unfold generateContinuation.
  destruct (g _) as [[[|c r]|]|e]; cbn; repeat split; intros x H;
    try discriminate H; try reflexivity; now injection H as <-.
Qed.

Lemma generateContinuation_logs_what_it_rejects_witness :
  generateContinuation (fun _ => Throws (Js.NotAnError (Js.Str rate_limited))) sky_was
  = ([(Js.lit "Gemini API Error:", Js.NotAnError (Js.Str rate_limited))],
     Rejected (Js.NotAnError (Js.Str rate_limited))).
Proof.
  pose proof (generateContinuation_logs_what_it_rejects
                (fun _ => Throws (Js.NotAnError (Js.Str rate_limited))) sky_was)
    as [H1 [_ H3]].
  specialize (H3 _ eq_refl). specialize (H1 _ H3).
  destruct (generateContinuation _ sky_was) as [l p]; cbn [fst snd] in *.
  now subst.
Defined.

(** X7. The prompt holds the document's text as it is, between a fixed
    head and a fixed tail, so two different texts never give the same
    prompt. *)
Theorem prompt_embeds_the_text :
  (exists head tail, forall currentText, prompt currentText = head ++ currentText ++ tail)
  /\ (forall a b, prompt a = prompt b -> a = b).
Proof.
  unfold prompt.
  generalize (Js.lit "---"); intros dashes.
  generalize (Js.lit "You are a helpful writing assistant. Continue the following text naturally. Maintain the tone and style of the existing text. Do not repeat the last sentence provided. Just provide the continuation text immediately without any conversational filler.").
  intros instructions. split.
  - exists (instructions ++ [10; 10]%N ++ dashes ++ [10]%N), ([10]%N ++ dashes).
    intros currentText. now rewrite <- !app_assoc.
  - intros a b H.
    apply app_inv_head in H. apply (app_inv_head [10; 10]%N) in H.
    apply app_inv_head in H. apply (app_inv_head [10]%N) in H.
    now apply app_inv_tail in H.
Qed.

Lemma prompt_embeds_the_text_witness :
  (exists head tail, prompt sky_was = head ++ sky_was ++ tail)
  /\ prompt sky_was <> prompt turning_orange.
Proof.
  split.
  - destruct (proj1 prompt_embeds_the_text) as [head [tail H]].
    exists head, tail. apply H.
  - intros H. apply (proj2 prompt_embeds_the_text) in H. discriminate H.
Defined.

(** ** The machine, state by state *)

(** X8. In [idle], [GENERATE] clears [error], keeps [lastGeneratedText],
    moves to [generating] and starts one actor on the event's text; the
    other two events that can be sent, [RETRY] and [RESET], leave the
    snapshot as it is. *)
Theorem idle_reacts_to_generate_only s :
  value s = idle ->
  (forall text,
     let s' := transition s (Sent (GENERATE text)) in
     value s' = generating /\ error (context s') = None /\
     lastGeneratedText (context s') = lastGeneratedText (context s) /\
     children s' = children s ++ [{| currentText_of := text |}])
  /\ transition s (Sent RETRY) = s
  /\ transition s (Sent RESET) = s.
Proof.
  destruct s as [v ctx cs]; cbn; intros ->. split; [|split]; try reflexivity.
  intros text. now cbn.
Qed.

Lemma idle_reacts_to_generate_only_witness :
  children (transition editorMachine (Sent (GENERATE sky_was)))
  = [{| currentText_of := sky_was |}]
  /\ transition editorMachine (Sent RETRY) = editorMachine.
Proof.
  destruct (idle_reacts_to_generate_only editorMachine eq_refl) as [H1 [H2 _]].
  split.
  - exact (proj2 (proj2 (proj2 (H1 sky_was)))).
  - exact H2.
Defined.

(** X9. In every snapshot the machine reaches, with or without the
    adapter in the loop, [error] is set exactly when the state is
    [failure]. *)
Theorem error_set_exactly_in_failure :
  (forall evs, error (context (run_machine evs)) <> None
               <-> value (run_machine evs) = failure)
  /\ (forall inputs, error (context (run inputs)) <> None
                     <-> value (run inputs) = failure).
Proof.
  assert (W : forall s, well_formed s ->
                (error (context s) <> None <-> value s = failure)).
  { intros s. unfold well_formed. destruct (value s); intros [_ H]; split; intros K;
      try discriminate K; try reflexivity; try assumption; now elim K. }
  split; intros; apply W; [apply run_machine_well_formed|apply run_well_formed].
Qed.

(** X10. [lastGeneratedText] is written by a success and by nothing
    else: if an event changes it, the machine was in [generating] and the
    event was the actor's done event, whose output it now holds; and once it
    is set no event sets it back to [null]. *)
Theorem lastGeneratedText_written_by_success_only s ev :
  (lastGeneratedText (context (transition s ev)) <> lastGeneratedText (context s) ->
   value s = generating /\
   exists output, ev = DoneActor output /\
                  lastGeneratedText (context (transition s ev)) = Some output)
  /\ (lastGeneratedText (context s) <> None ->
      lastGeneratedText (context (transition s ev)) <> None).
Proof.
  destruct s as [v ctx cs]; unfold transition.
  destruct v, ev as [[t| |]|o|e]; cbn; split; intros H;
    try (now elim H); try assumption; try discriminate.
  split; [reflexivity|]. now exists o.
Qed.

Lemma lastGeneratedText_written_by_success_only_witness :
  value while_generating = generating /\
  lastGeneratedText
    (context (transition (transition while_generating (DoneActor turning_orange))
                (Sent (GENERATE sky_was)))) <> None.
Proof.
  split.
  - assert (N : lastGeneratedText
                  (context (transition while_generating (DoneActor turning_orange)))
                <> lastGeneratedText (context while_generating)) by discriminate.
    exact (proj1 (proj1 (lastGeneratedText_written_by_success_only
                           while_generating (DoneActor turning_orange)) N)).
  - apply (proj2 (lastGeneratedText_written_by_success_only
                    (transition while_generating (DoneActor turning_orange))
                    (Sent (GENERATE sky_was)))).
    discriminate.
Defined.

(** ** The machine with the adapter *)

Lemma run_snoc inputs i : run (inputs ++ [i]) = system_step (run inputs) i.
Proof. unfold run. apply fold_left_snoc. Qed.

(** X11. Settling ends the attempt: the actor is gone, and the machine is
    in [idle] exactly when the adapter fulfilled for the running actor's
    text, and in [failure] exactly when it rejected. *)
Theorem settling_ends_the_attempt inputs g :
  value (run inputs) = generating ->
  exists running,
    children (run inputs) = [running] /\
    let outcome := snd (generateContinuation g (currentText_of running)) in
    let s' := system_step (run inputs) (Settle g) in
    children s' = [] /\
    (value s' = idle <-> exists text, outcome = Fulfilled text) /\
    (value s' = failure <-> exists e, outcome = Rejected e).
Proof.
  intros Hv. destruct (settle_in_generating inputs g Hv) as [running [Hc ->]].
  exists running. split; [exact Hc|]. cbn zeta.
  destruct (run inputs) as [v ctx cs]; cbn in Hv; subst v.
  destruct (snd (generateContinuation g (currentText_of running))) as [text|e]; cbn;
    (split; [reflexivity|]); split; split; intros H;
    try discriminate H; try reflexivity; try (now destruct H);
    eexists; reflexivity.
Qed.

Lemma settling_ends_the_attempt_witness :
  value (system_step (run [Send (GENERATE sky_was)])
           (Settle (fun _ => Response (Some turning_orange)))) = idle
  /\ children (system_step (run [Send (GENERATE sky_was)])
                 (Settle (fun _ => Response (Some turning_orange)))) = [].
Proof.
  destruct (settling_ends_the_attempt [Send (GENERATE sky_was)]
              (fun _ => Response (Some turning_orange)) eq_refl)
    as [running [Hc [H1 [H2 _]]]].
  split; [|exact H1]. apply H2. injection Hc as <-. eexists; reflexivity.
Defined.

(** X12. A whole attempt: when [GENERATE] is sent while no attempt runs,
    the adapter is called with the text of that very event, and the machine
    ends where the adapter's outcome for that text takes it. *)
Theorem attempt_uses_the_sent_text inputs text g :
  value (run inputs) <> generating ->
  run (inputs ++ [Send (GENERATE text); Settle g])
  = transition (transition (run inputs) (Sent (GENERATE text)))
      (actor_event (snd (generateContinuation g text))).
Proof.
  intros Hv.
  change (inputs ++ [Send (GENERATE text); Settle g])
    with (inputs ++ [Send (GENERATE text)] ++ [Settle g]).
  rewrite app_assoc, !run_snoc.
  pose proof (run_well_formed inputs) as W. unfold well_formed in W.
  destruct (run inputs) as [v ctx cs]; cbn in Hv, W.
  destruct v; [|now elim Hv|]; destruct W as [-> _]; reflexivity.
Qed.

Lemma attempt_uses_the_sent_text_witness :
  run ([] ++ [Send (GENERATE sky_was); Settle (fun _ => Response (Some turning_orange))])
  = {| value := idle;
       context := {| error := None; lastGeneratedText := Some turning_orange |};
       children := [] |}.
Proof.
  rewrite (attempt_uses_the_sent_text [] sky_was
             (fun _ => Response (Some turning_orange))); [reflexivity|discriminate].
Defined.

(** X13. With the adapter in the loop, [lastGeneratedText] is [null] or a
    non-empty string in every snapshot: the machine never records an empty
    success. *)
Theorem lastGeneratedText_never_empty inputs :
  lastGeneratedText (context (run inputs)) = None
  \/ exists c r, lastGeneratedText (context (run inputs)) = Some (c :: r).
Proof.
  pose proof (run_text_not_empty inputs) as H. unfold text_not_empty in H.
  destruct (lastGeneratedText (context (run inputs))) as [[|c r]|];
    [now elim H|right; eauto|now left].
Qed.

(** ** The component, action by action *)

Section ComponentFacts.

Variable insertTextAtEnd : Js.str -> Node -> Node.

Local Abbreviation effect := (syncEffect insertTextAtEnd).
Local Abbreviation step := (app_step insertTextAtEnd).
Local Abbreviation component := (app_run insertTextAtEnd).

Lemma fires_needs_edge prev s :
  prev <> generating \/ value s <> idle -> fires prev s = false.
Proof.
  intros H. destruct (fires prev s) eqn:F; [|reflexivity].
  apply fires_spec in F. destruct F as [F1 [F2 _]]. destruct H; contradiction.
Qed.

Lemma effect_insertions app view :
  editorRef app = Some {| viewRef := Some view |} ->
  insertions (effect app)
  = insertions app
    ++ (if fires (previousStateValue app) (state app)
        then [Js.or_empty (lastGeneratedText (context (state app)))] else []).
Proof.
  intros Href. unfold syncEffect, insertions, fires; cbn [editorRef].
  rewrite Href.
  destruct (StateValue_eqb (previousStateValue app) generating
            && matches (state app) idle
            && Js.truthy (lastGeneratedText (context (state app))));
    cbn; [reflexivity|now rewrite app_nil_r].
Qed.

Lemma effect_keeps_view app view :
  editorRef app = Some {| viewRef := Some view |} ->
  exists view', editorRef (effect app) = Some {| viewRef := Some view' |}.
Proof.
  intros Href. unfold syncEffect; cbn [editorRef]. rewrite Href.
  destruct (_ && _ && _); cbn; eauto.
Qed.

Lemma effect_at_rest app :
  well_formed (state app) -> text_not_empty (state app) ->
  (exists view, editorRef app = Some {| viewRef := Some view |}) ->
  at_rest (effect app).
Proof.
  intros W T [view Href]. repeat split; try assumption.
  now apply (effect_keeps_view app view).
Qed.

Lemma act_state a app :
  state (act a app) = state app \/
  (exists i, state (act a app) = system_step (state app) i).
Proof.
  destruct a as [| |tr|g]; cbn.
  - destruct (matches (state app) generating); [now left|].
    unfold handleContinueWriting. destruct (editorRef app) as [h|]; [|now left].
    destruct (negb _); [now left|right]. now exists (Send (GENERATE (getContent h))).
  - destruct (matches (state app) failure); [right|now left]. now exists (Send RETRY).
  - now left.
  - right. now exists (Settle g).
Qed.

Lemma act_previous a app : previousStateValue (act a app) = previousStateValue app.
Proof.
  destruct a as [| |tr|g]; cbn; try reflexivity.
  - destruct (matches (state app) generating); [reflexivity|].
    unfold handleContinueWriting. destruct (editorRef app) as [h|]; [|reflexivity].
    now destruct (negb _).
  - now destruct (matches (state app) failure).
Qed.

Lemma act_insertions a app : insertions (act a app) = insertions app.
Proof.
  destruct a as [| |tr|g]; cbn; try reflexivity.
  - destruct (matches (state app) generating); [reflexivity|].
    unfold handleContinueWriting. destruct (editorRef app) as [h|]; [|reflexivity].
    now destruct (negb _).
  - now destruct (matches (state app) failure).
  - unfold insertions; cbn. now destruct (editorRef app) as [[[view|]]|].
Qed.

Lemma act_keeps_view a app view :
  editorRef app = Some {| viewRef := Some view |} ->
  exists view', editorRef (act a app) = Some {| viewRef := Some view' |}.
Proof.
  intros Href. destruct a as [| |tr|g]; cbn; eauto.
  - destruct (matches (state app) generating); [eauto|].
    unfold handleContinueWriting. rewrite Href. destruct (negb _); cbn; eauto.
  - destruct (matches (state app) failure); cbn; eauto.
  - rewrite Href; cbn; eauto.
Qed.

Lemma step_at_rest app a : at_rest app -> at_rest (step app a).
Proof.
  intros [_ [W [T [view Href]]]]. unfold app_step. apply effect_at_rest.
  - destruct (act_state a app) as [->|[i ->]];
      [exact W|now apply system_step_well_formed].
  - destruct (act_state a app) as [->|[i ->]];
      [exact T|now apply system_step_text_not_empty].
  - now apply (act_keeps_view a app view).
Qed.

Lemma component_at_rest d actions : at_rest (component (Some (mounted d)) actions).
Proof.
  unfold app_run. apply (fold_left_invariant at_rest).
  - intros; now apply step_at_rest.
  - apply effect_at_rest.
    + exact editorMachine_well_formed.
    + unfold text_not_empty; cbn; discriminate.
    + eexists; reflexivity.
Qed.

Lemma step_insertions app a :
  at_rest app -> insertions (step app a) = insertions app ++ delivered (state app) a.
Proof.
  intros [P [W [T [view Href]]]]. unfold app_step.
  destruct (act_keeps_view a app view Href) as [view' Href'].
  rewrite (effect_insertions (act a app) view' Href'), act_insertions, act_previous, P.
  apply (f_equal (@List.app Js.str _)).
  unfold well_formed in W.
  destruct app as [[v ctx cs] prev ref al se]; cbn in *.
  destruct v; destruct W as [Hc He].
  - rewrite fires_needs_edge by (left; discriminate).
    destruct a; cbn; try reflexivity. now rewrite Hc.
  - destruct Hc as [running Hc]. subst cs.
    destruct a as [| |tr|g]; cbn; try reflexivity.
    destruct (snd (generateContinuation g (currentText_of running))) as [text|e] eqn:E.
    + apply generateContinuation_fulfilled in E. now destruct text.
    + reflexivity.
  - rewrite fires_needs_edge by (left; discriminate).
    destruct a; cbn; try reflexivity. now rewrite Hc.
Qed.

(** X14. Running the effect again on the snapshot it has just seen
    changes nothing: a render without a new snapshot inserts nothing. *)
Theorem effect_run_again_changes_nothing app :
  syncEffect insertTextAtEnd (syncEffect insertTextAtEnd app)
  = syncEffect insertTextAtEnd app.
Proof.
  destruct app as [[v ctx cs] prev ref al se]. unfold syncEffect, matches; cbn.
  now destruct v.
Qed.

(** X15. Over any sequence of observed snapshots, with a mounted editor,
    the texts inserted are exactly the texts of the snapshots seen on a
    [generating -> idle] edge with a text to insert, in that order, after
    what was inserted before. *)
Theorem observed_insertions snapshots : forall app view,
  editorRef app = Some {| viewRef := Some view |} ->
  insertions (observe_all insertTextAtEnd app snapshots)
  = insertions app ++ edge_texts (previousStateValue app) snapshots.
Proof.
  induction snapshots as [|s r IH]; intros app view Href.
  - cbn. now rewrite app_nil_r.
  - cbn [observe_all fold_left edge_texts].
    set (seen := {| state := s; previousStateValue := previousStateValue app;
                    editorRef := editorRef app; alerts := alerts app;
                    sent := sent app |}).
    change (observe insertTextAtEnd app s) with (effect seen).
    destruct (effect_keeps_view seen view Href) as [view' Href'].
    fold (observe_all insertTextAtEnd (effect seen) r).
    rewrite (IH (effect seen) view' Href'), (effect_insertions seen view Href).
    now rewrite <- app_assoc.
Qed.

(** X16. In every run of the mounted component, an action adds to the
    document exactly what the adapter delivers at that action: the fulfilled
    text when the action is the settling of the running attempt, and nothing
    for a rejection, a click or an edit.  Earlier insertions stay. *)
Theorem component_inserts_what_is_delivered d actions a :
  insertions (step (component (Some (mounted d)) actions) a)
  = insertions (component (Some (mounted d)) actions)
    ++ delivered (state (component (Some (mounted d)) actions)) a.
Proof. apply step_insertions, component_at_rest. Qed.

(** X17. In every run of the mounted component the error banner is
    rendered exactly when the context holds an error, and it never shows an
    empty text: it shows the error, or [Something went wrong.] when the
    error is the empty string. *)
Theorem banner_shows_the_error d actions :
  let app := component (Some (mounted d)) actions in
  (banner (render app) = None <-> error (context (state app)) = None)
  /\ (forall msg, banner (render app) = Some msg ->
        msg <> [] /\
        (error (context (state app)) = Some msg \/
         error (context (state app)) = Some [] /\ msg = something_went_wrong)).
Proof.
  cbn zeta. destruct (component_at_rest d actions) as [_ [W _]].
  unfold well_formed in W. unfold render, matches; cbn [banner].
  destruct (value (state (component (Some (mounted d)) actions)));
    destruct W as [_ He]; cbn [StateValue_eqb].
  - split; [now split|]. intros msg H; discriminate H.
  - split; [now split|]. intros msg H; discriminate H.
  - destruct (error _) as [[|c r]|]; [| |now elim He]; cbn [Js.truthy Js.or_empty].
    + split; [split; intros H; discriminate H|].
      intros msg H; injection H as <-. split; [discriminate|now right].
    + split; [split; intros H; discriminate H|].
      intros msg H; injection H as <-. split; [discriminate|now left].
Qed.

Lemma click_starts_attempt app view :
  value (state app) <> generating ->
  children (state app) = [] ->
  editorRef app = Some {| viewRef := Some view |} ->
  no_visible_text (doc view) = false ->
  let text := getContent {| viewRef := Some view |} in
  let app' := step app ClickContinue in
  value (state app') = generating
  /\ children (state app') = [{| currentText_of := text |}]
  /\ sent app' = sent app ++ [GENERATE text]
  /\ alerts app' = alerts app
  /\ editorRef app' = editorRef app.
Proof.
  intros Hg Hc Href Hv. cbn zeta.
  destruct (handleContinueWriting_cases app view Href) as [_ H].
  destruct (H Hv) as [E _]. clear H.
  unfold app_step, act, render. cbn [buttonDisabled].
  assert (M : matches (state app) generating = false).
  { unfold matches. destruct (value (state app)); try reflexivity. now elim Hg. }
  rewrite M, E. clear E.
  destruct app as [[v ctx cs] prev ref al se]. cbn in Hg, Hc. subst cs.
  unfold send, syncEffect, matches; cbn.
  destruct v; [|now elim Hg|]; cbn; rewrite andb_false_r; now repeat split.
Qed.

(** X18. In every run of the mounted component the button is disabled
    exactly while an attempt runs, and a click on it then changes nothing;
    when it is enabled and the document holds visible text, a click starts
    one attempt on the trimmed text of the document. *)
Theorem button_guards_the_attempt d actions :
  let app := component (Some (mounted d)) actions in
  (buttonDisabled (render app) = true <-> children (state app) <> [])
  /\ (buttonDisabled (render app) = true -> step app ClickContinue = app)
  /\ (forall view,
        buttonDisabled (render app) = false ->
        editorRef app = Some {| viewRef := Some view |} ->
        no_visible_text (doc view) = false ->
        let text := getContent {| viewRef := Some view |} in
        let app' := step app ClickContinue in
        value (state app') = generating
        /\ children (state app') = [{| currentText_of := text |}]
        /\ sent app' = sent app ++ [GENERATE text]
        /\ alerts app' = alerts app
        /\ editorRef app' = editorRef app).
Proof.
  cbn zeta. destruct (component_at_rest d actions) as [P [W _]].
  set (app := component (Some (mounted d)) actions) in *.
  unfold well_formed in W.
  assert (B : buttonDisabled (render app) = matches (state app) generating)
    by reflexivity.
  rewrite B. unfold matches.
  split; [|split].
  - destruct (value (state app)); destruct W as [Hc _]; cbn;
      try (rewrite Hc; split; [discriminate|intros H; now elim H]).
    destruct Hc as [running ->]. split; [discriminate|reflexivity].
  - intros H. unfold app_step, act. rewrite B. unfold matches. rewrite H.
    destruct app as [[v ctx cs] prev ref al se]. cbn in P, H. subst prev.
    unfold syncEffect, matches; cbn. now destruct v.
  - intros view H Href Hv.
    apply (click_starts_attempt app view); try assumption.
    + intros K. rewrite K in H. discriminate H.
    + destruct (value (state app)); destruct W as [Hc _]; try assumption.
      discriminate H.
Qed.

(** X19. In every run of the mounted component, [Dismiss] is there only
    in [failure]; a click on it sends [RETRY], which takes the machine to
    [idle] with [error] cleared, removes the banner, and leaves the document,
    the insertions and [lastGeneratedText] as they were.  Without the banner
    there is nothing to click. *)
Theorem dismiss_returns_to_idle d actions :
  let app := component (Some (mounted d)) actions in
  let app' := step app ClickDismiss in
  (value (state app) = failure ->
     value (state app') = idle
     /\ error (context (state app')) = None
     /\ lastGeneratedText (context (state app'))
        = lastGeneratedText (context (state app))
     /\ children (state app') = []
     /\ banner (render app') = None
     /\ editorRef app' = editorRef app
     /\ sent app' = sent app ++ [RETRY])
  /\ (value (state app) <> failure -> app' = app).
Proof.
  cbn zeta. destruct (component_at_rest d actions) as [P [W _]].
  unfold well_formed in W.
  destruct (component (Some (mounted d)) actions) as [[v ctx cs] prev ref al se].
  cbn in P, W. subst prev. unfold app_step, render, matches; cbn.
  destruct v; destruct W as [Hc He]; cbn; split; intros H;
    try discriminate H; try (now elim H); try reflexivity.
Qed.

(** X20. Whatever the user does, the component never sends [RESET], and
    every [GENERATE] it sends carries a text that is not empty and has no
    white space at its ends. *)
Theorem component_sends_valid_events h actions :
  Forall (fun e => e = RETRY \/
                   exists text, e = GENERATE text /\ text <> [] /\ Js.trim text = text)
         (sent (component h actions)).
Proof.
  unfold app_run.
  apply (fold_left_invariant
           (fun app => Forall (fun e => e = RETRY \/
                      exists text, e = GENERATE text /\ text <> [] /\ Js.trim text = text)
                      (sent app))); [|constructor].
  intros app a H. unfold app_step. cbn [sent syncEffect].
  destruct a as [| |tr|g]; cbn [act]; try exact H.
  - destruct (buttonDisabled (render app)); [exact H|].
    unfold handleContinueWriting. destruct (editorRef app) as [hd|]; [|exact H].
    rewrite getContent_trimmed.
    destruct (getContent hd) as [|c r] eqn:E; cbn; [exact H|].
    apply Forall_app; split; [exact H|].
    constructor; [|constructor]. right. exists (c :: r).
    split; [reflexivity|split; [discriminate|]].
    rewrite <- E. apply getContent_trimmed.
  - destruct (banner (render app)); [|exact H]. cbn.
    apply Forall_app; split; [exact H|]. constructor; [now left|constructor].
Qed.

(** X21. The handle's three methods guard against a missing view:
    [getContent] then returns the empty string and [insertContent] and
    [focus] do nothing.  With a view, [focus] changes neither what
    [getContent] returns nor what was inserted, and an insertion already
    leaves the view focused. *)
Theorem handle_guards_missing_view h :
  (viewRef h = None ->
     getContent h = [] /\
     (forall text, insertContent insertTextAtEnd text h = h) /\ focus h = h)
  /\ getContent (focus h) = getContent h
  /\ option_map inserted (viewRef (focus h)) = option_map inserted (viewRef h)
  /\ (forall text,
        focus (insertContent insertTextAtEnd text h)
        = insertContent insertTextAtEnd text h).
Proof.
  destruct h as [[view|]]; unfold getContent, insertContent, focus; cbn.
  - split; [intros H; discriminate H|]. now repeat split.
  - now repeat split.
Qed.

End ComponentFacts.

Lemma banner_shows_the_error_witness :
  banner (render (app_run append_paragraph (Some (mounted sky_doc))
                    [ClickContinue;
                     Settles (fun _ => Throws (Js.ErrorInstance rate_limited))]))
  = Some rate_limited
  /\ rate_limited <> [].
Proof.
  split; [reflexivity|].
  exact (proj1 (proj2 (banner_shows_the_error append_paragraph sky_doc
                  [ClickContinue;
                   Settles (fun _ => Throws (Js.ErrorInstance rate_limited))])
                  rate_limited eq_refl)).
Defined.

Lemma observed_insertions_witness :
  insertions (observe_all append_paragraph (first_render (Some (mounted sky_doc)))
                [while_generating; run scenario_A; run scenario_A; after_failure])
  = [turning_orange].
Proof.
  exact (observed_insertions append_paragraph
           [while_generating; run scenario_A; run scenario_A; after_failure]
           (first_render (Some (mounted sky_doc)))
           {| doc := sky_doc; inserted := []; focused := true |} eq_refl).
Defined.

Lemma button_guards_the_attempt_witness :
  buttonDisabled (render (app_run append_paragraph (Some (mounted sky_doc)) [ClickContinue]))
  = true
  /\ app_step append_paragraph
       (app_run append_paragraph (Some (mounted sky_doc)) [ClickContinue]) ClickContinue
     = app_run append_paragraph (Some (mounted sky_doc)) [ClickContinue]
  /\ children (state (app_step append_paragraph
                        (app_run append_paragraph (Some (mounted sky_doc)) []) ClickContinue))
     = [{| currentText_of := sky_was |}].
Proof.
  split; [reflexivity|split].
  - exact (proj1 (proj2 (button_guards_the_attempt append_paragraph sky_doc [ClickContinue]))
             eq_refl).
  - exact (proj1 (proj2 (proj2 (proj2 (button_guards_the_attempt append_paragraph sky_doc []))
             {| doc := sky_doc; inserted := []; focused := true |}
             eq_refl eq_refl eq_refl))).
Defined.

Lemma dismiss_returns_to_idle_witness :
  value (state (app_run append_paragraph (Some (mounted sky_doc))
                  [ClickContinue; Settles (fun _ => Response None)])) = failure
  /\ value (state (app_run append_paragraph (Some (mounted sky_doc))
                     [ClickContinue; Settles (fun _ => Response None); ClickDismiss])) = idle.
Proof.
  split; [reflexivity|].
  exact (proj1 (proj1 (dismiss_returns_to_idle append_paragraph sky_doc
                  [ClickContinue; Settles (fun _ => Response None)]) eq_refl)).
Defined.

Lemma handle_guards_missing_view_witness :
  getContent {| viewRef := None |} = []
  /\ insertContent append_paragraph turning_orange {| viewRef := None |}
     = {| viewRef := None |}.
Proof.
  destruct (proj1 (handle_guards_missing_view append_paragraph {| viewRef := None |})
              eq_refl) as [H1 [H2 _]].
  split; [exact H1|exact (H2 turning_orange)].
Defined.
